(** * tokenizers_cpp.h: the [Tokenizer] facade and its default methods

    A shallow embedding of [include/tokenizers_cpp.h].  The header declares
    an abstract class: five pure virtual methods every backend supplies
    ([Encode] and [Decode] with a flag, [GetVocabSize], [IdToToken],
    [TokenToId]) and six virtual methods with a body in the base class (the
    flag-free overloads and the two batch fall-backs).

    None of the member functions is declared [const] and any of them may
    throw, so a method call is modelled as a computation over the state of
    the instance that either returns a value or raises a fault. *)

From stdpp Require Import base option list strings gmap.
From Stdlib Require Import ZArith Ascii.

Local Open Scope Z_scope.

(** ** Calls on an instance: state and faults *)

(** What a call yields: the returned value, or the fault it raised. *)
Inductive outcome (Fault A : Type) : Type :=
  | Ret (a : A)
  | Throw (e : Fault).
Arguments Ret {Fault A} a.
Arguments Throw {Fault A} e.

(** A method body: from the state of the instance before the call to the
    outcome and the state after it. *)
Definition M (St Fault A : Type) : Type := St → outcome Fault A * St.

Global Instance M_ret {St Fault} : MRet (M St Fault) :=
  λ A a s, (Ret a, s).

(** Sequencing: a fault in the first computation leaves the rest unrun. *)
Global Instance M_bind {St Fault} : MBind (M St Fault) :=
  λ A B k m s,
    match m s with
    | (Ret a, s') => k a s'
    | (Throw e, s') => (Throw e, s')
    end.

Definition returns {St Fault A} (m : M St Fault A) (s : St) : Prop :=
  ∃ a s', m s = (Ret a, s').

(** ** Data *)

(** [int32_t]: the header only stores and passes token ids, it never
    computes with them. *)
Definition int32 : Type := Z.

(** [std::vector<T>::push_back].  Running out of memory is not modelled. *)
Definition push_back {A} (v : list A) (x : A) : list A := v ++ [x].

(** [for (const auto& x : xs) body], threading the locals [acc] the body
    updates.  A fault in the body leaves the loop at once. *)
Fixpoint range_for {St Fault A R}
    (body : A → R → M St Fault R) (xs : list A) (acc : R) : M St Fault R :=
  match xs with
  | [] => mret acc
  | x :: xs' => acc' ← body x acc; range_for body xs' acc'
  end.

(** ** The class *)

Section Tokenizer.
Context {St Fault : Type}.

(** An instance behind a [Tokenizer*]: the five pure virtual methods the
    derived class defines, and for each virtual method with a base-class
    body the override of the derived class, if it has one. *)
Record Tokenizer : Type := {
  Encode : string → bool → M St Fault (list int32);
  Decode : list int32 → bool → M St Fault string;
  GetVocabSize : M St Fault N;
  IdToToken : int32 → M St Fault string;
  TokenToId : string → M St Fault int32;
  override_Encode1 : option (string → M St Fault (list int32));
  override_EncodeBatch : option (list string → bool → M St Fault (list (list int32)));
  override_EncodeBatch1 : option (list string → M St Fault (list (list int32)));
  override_Decode1 : option (list int32 → M St Fault string);
  override_DecodeBatch : option (list (list int32) → bool → M St Fault (list string));
  override_DecodeBatch1 : option (list (list int32) → M St Fault (list string))
}.

(** A virtual call runs the override when there is one and the base-class
    body otherwise. *)
Definition dispatch {T} (override : option T) (base : T) : T :=
  match override with
  | Some f => f
  | None => base
  end.

(** [Encode(text)], line 38. *)
Definition default_Encode1 (this : Tokenizer) (text : string) : M St Fault (list int32) :=
  Encode this text false.

Definition Encode1 (this : Tokenizer) : string → M St Fault (list int32) :=
  dispatch (override_Encode1 this) (default_Encode1 this).

(** [EncodeBatch(texts, add_special_tokens)], lines 46-55.  [ret] starts
    empty.  [ret.reserve] sets the capacity of [ret] and does not change
    its contents; it is left out, memory being taken as unbounded here
    (on the machine it can throw [std::bad_alloc] before the first
    [Encode] call). *)
Definition default_EncodeBatch (this : Tokenizer)
    (texts : list string) (add_special_tokens : bool) : M St Fault (list (list int32)) :=
  range_for
    (λ text ret, ids ← Encode this text add_special_tokens; mret (push_back ret ids))
    texts [].

Definition EncodeBatch (this : Tokenizer) :
    list string → bool → M St Fault (list (list int32)) :=
  dispatch (override_EncodeBatch this) (default_EncodeBatch this).

(** [EncodeBatch(texts)], lines 62-64. *)
Definition default_EncodeBatch1 (this : Tokenizer)
    (texts : list string) : M St Fault (list (list int32)) :=
  EncodeBatch this texts false.

Definition EncodeBatch1 (this : Tokenizer) : list string → M St Fault (list (list int32)) :=
  dispatch (override_EncodeBatch1 this) (default_EncodeBatch1 this).

(** [Decode(ids)], line 79. *)
Definition default_Decode1 (this : Tokenizer) (ids : list int32) : M St Fault string :=
  Decode this ids false.

Definition Decode1 (this : Tokenizer) : list int32 → M St Fault string :=
  dispatch (override_Decode1 this) (default_Decode1 this).

(** [DecodeBatch(ids, skip_special_tokens)], lines 87-96, with
    [ret.reserve] left out as in [default_EncodeBatch]. *)
Definition default_DecodeBatch (this : Tokenizer)
    (ids : list (list int32)) (skip_special_tokens : bool) : M St Fault (list string) :=
  range_for
    (λ id ret, text ← Decode this id skip_special_tokens; mret (push_back ret text))
    ids [].

Definition DecodeBatch (this : Tokenizer) :
    list (list int32) → bool → M St Fault (list string) :=
  dispatch (override_DecodeBatch this) (default_DecodeBatch this).

(** [DecodeBatch(ids)], lines 103-105. *)
Definition default_DecodeBatch1 (this : Tokenizer)
    (ids : list (list int32)) : M St Fault (list string) :=
  DecodeBatch this ids false.

Definition DecodeBatch1 (this : Tokenizer) : list (list int32) → M St Fault (list string) :=
  dispatch (override_DecodeBatch1 this) (default_DecodeBatch1 this).

(** A derived class that defines the five pure virtual methods and
    nothing else. *)
Definition derive
    (encode : string → bool → M St Fault (list int32))
    (decode : list int32 → bool → M St Fault string)
    (vocab_size : M St Fault N)
    (id_to_token : int32 → M St Fault string)
    (token_to_id : string → M St Fault int32) : Tokenizer :=
  {| Encode := encode;
     Decode := decode;
     GetVocabSize := vocab_size;
     IdToToken := id_to_token;
     TokenToId := token_to_id;
     override_Encode1 := None;
     override_EncodeBatch := None;
     override_EncodeBatch1 := None;
     override_Decode1 := None;
     override_DecodeBatch := None;
     override_DecodeBatch1 := None |}.

End Tokenizer.

Arguments Tokenizer : clear implicits.

(** ** Vocabulary of the properties *)

Section Sequential.
Context {St Fault A B : Type}.

(** Calling [f] on each item in order and collecting what the calls
    return: what a batch fall-back is meant to compute. *)
Fixpoint each (f : A → M St Fault B) (xs : list A) : M St Fault (list B) :=
  match xs with
  | [] => mret []
  | x :: xs' => r ← f x; rs ← each f xs'; mret (r :: rs)
  end.

(** The state of the instance when a loop over [xs] that started in [s]
    reaches position [i]: the calls on the items before [i] have run, in
    order. *)
Definition state_at (f : A → M St Fault B) (xs : list A) (s : St) (i : nat) : St :=
  fold_left (λ s' x, (f x s').2) (take i xs) s.

(** The outcome of the per-item call at each position of [xs], in input
    order. *)
Definition outcomes_at (f : A → M St Fault B) (xs : list A) (s : St) :
    list (outcome Fault B) :=
  imap (λ i x, (f x (state_at f xs s i)).1) xs.

(** Every per-item call of a loop over [xs] from [s] returns. *)
Definition all_return (f : A → M St Fault B) (xs : list A) (s : St) : Prop :=
  ∀ i x, xs !! i = Some x → returns (f x) (state_at f xs s i).

(** A method that leaves the state of the instance as it found it. *)
Definition read_only (m : M St Fault A) : Prop :=
  ∀ s, (m s).2 = s.


End Sequential.

(** An instance whose [Encode] and [Decode] never change its state: the
    backend is stateless after construction. *)
Definition stateless {St Fault} (tk : Tokenizer St Fault) : Prop :=
  (∀ text b, read_only (Encode tk text b)) ∧
  (∀ ids b, read_only (Decode tk ids b)).

(** ** Backends used to exercise the facade *)

Inductive fault : Type :=
  | BadByte (c : ascii)
  | BadId (id : int32).

Definition BOS : int32 := 256.
Definition EOS : int32 := 257.

(** One id per byte; only 7-bit bytes are in the alphabet. *)
Fixpoint byte_ids (text : string) : outcome fault (list int32) :=
  match text with
  | EmptyString => Ret []
  | String c text' =>
      if (nat_of_ascii c <? 128)%nat then
        match byte_ids text' with
        | Ret ids => Ret (Z.of_nat (nat_of_ascii c) :: ids)
        | Throw e => Throw e
        end
      else Throw (BadByte c)
  end.

Definition byte_encode (text : string) (add_special_tokens : bool) :
    outcome fault (list int32) :=
  match byte_ids text with
  | Ret ids => Ret (if add_special_tokens then BOS :: ids ++ [EOS] else ids)
  | Throw e => Throw e
  end.

Definition byte_piece (id : int32) (skip_special_tokens : bool) : outcome fault string :=
  if bool_decide (0 ≤ id < 128) then Ret (String (ascii_of_nat (Z.to_nat id)) "")
  else if bool_decide (id = BOS) then Ret (if skip_special_tokens then "" else "<s>")
  else if bool_decide (id = EOS) then Ret (if skip_special_tokens then "" else "</s>")
  else Throw (BadId id).

Fixpoint byte_decode (ids : list int32) (skip_special_tokens : bool) :
    outcome fault string :=
  match ids with
  | [] => Ret ""
  | id :: ids' =>
      match byte_piece id skip_special_tokens with
      | Ret p =>
          match byte_decode ids' skip_special_tokens with
          | Ret text => Ret (p +:+ text)
          | Throw e => Throw e
          end
      | Throw e => Throw e
      end
  end.

Definition byte_id_to_token (id : int32) : string :=
  match byte_piece id false with
  | Ret p => p
  | Throw _ => ""
  end.

Definition byte_token_to_id (token : string) : int32 :=
  if bool_decide (token = "<s>") then BOS
  else if bool_decide (token = "</s>") then EOS
  else match token with
       | String c EmptyString =>
           if (nat_of_ascii c <? 128)%nat then Z.of_nat (nat_of_ascii c) else -1
       | _ => -1
       end.

(** A backend that keeps no state: whatever the state of the instance is,
    the calls leave it alone. *)
Definition byte_tokenizer {St} : Tokenizer St fault :=
  derive
    (λ text b s, (byte_encode text b, s))
    (λ ids b s, (byte_decode ids b, s))
    (mret 258%N)
    (λ id, mret (byte_id_to_token id))
    (λ token, mret (byte_token_to_id token)).

(** The same backend keeping count of the [Encode] and [Decode] calls it
    has served. *)
Definition counting_tokenizer : Tokenizer nat fault :=
  derive
    (λ text b n, (byte_encode text b, S n))
    (λ ids b n, (byte_decode ids b, S n))
    (mret 258%N)
    (λ id, mret (byte_id_to_token id))
    (λ token, mret (byte_token_to_id token)).


(** A derived class with an engine-side batch call: it overrides the
    two-argument [EncodeBatch] and counts one call for the whole batch. *)
Definition native_tokenizer : Tokenizer nat fault :=
  {| Encode := Encode counting_tokenizer;
     Decode := Decode counting_tokenizer;
     GetVocabSize := GetVocabSize counting_tokenizer;
     IdToToken := IdToToken counting_tokenizer;
     TokenToId := TokenToId counting_tokenizer;
     override_Encode1 := None;
     override_EncodeBatch :=
       Some (λ texts b n,
               ((each (λ text s, (byte_encode text b, s)) texts n).1, S n));
     override_EncodeBatch1 := None;
     override_Decode1 := None;
     override_DecodeBatch := None;
     override_DecodeBatch1 := None |}.

(** ** Vocabulary lookups *)

(** Modelled from the spec: the vocabulary a backend holds.  The header
    declares [GetVocabSize], [IdToToken] and [TokenToId] pure virtual; the
    adapters that define them are not part of it.  The spec describes a
    vocabulary as a table from token strings to ids (its example is
    hello:10, world:11, <s>:0, </s>:1), a number of addressable ids, and a
    string form for some of the ids. *)
Record Vocabulary : Type := {
  vocab_size : N;
  token_ids : gmap string int32;
  id_tokens : gmap int32 string
}.

(** Modelled from the spec: [TokenToId] "returns the id for an exact string
    match, or -1 if absent". *)
Definition vocab_TokenToId (v : Vocabulary) (token : string) : int32 :=
  default (-1) (token_ids v !! token).

(** Modelled from the spec: [IdToToken] "returns the canonical string form
    of id, or an empty string if id is out of range or has no string
    form". *)
Definition vocab_IdToToken (v : Vocabulary) (id : int32) : string :=
  if bool_decide (0 ≤ id < Z.of_N (vocab_size v))
  then default "" (id_tokens v !! id)
  else "".

(** Modelled from the spec: an adapter over a vocabulary.  The lookups are
    ordinary returns ("NOT an error") and read the vocabulary only; the
    encoding and decoding engines are left to the backend. *)
Definition vocab_tokenizer {St Fault} (v : Vocabulary)
    (encode : string → bool → M St Fault (list int32))
    (decode : list int32 → bool → M St Fault string) : Tokenizer St Fault :=
  derive encode decode
    (mret (vocab_size v))
    (λ id, mret (vocab_IdToToken v id))
    (λ token, mret (vocab_TokenToId v token)).

(** The vocabulary of the spec's end-to-end scenario, with twelve
    addressable ids. *)
Definition hello_vocab : Vocabulary :=
  {| vocab_size := 12;
     token_ids := {[ "hello" := 10; "world" := 11; "<s>" := 0; "</s>" := 1 ]};
     id_tokens := {[ 10 := "hello"; 11 := "world"; 0 := "<s>"; 1 := "</s>" ]} |}.

Example byte_encode_hi : byte_encode "hi" true = Ret [256; 104; 105; 257].
Proof. reflexivity. Qed.

Example default_EncodeBatch_counts :
  default_EncodeBatch counting_tokenizer ["a"; ""; "bc"] false 0%nat
  = (Ret [[97]; []; [98; 99]], 3%nat).
Proof. reflexivity. Qed.

Example hello_lookup :
  vocab_TokenToId hello_vocab "hello" = 10 ∧ vocab_TokenToId hello_vocab "Hello" = -1
  ∧ vocab_IdToToken hello_vocab 11 = "world" ∧ vocab_IdToToken hello_vocab 5 = ""
  ∧ vocab_IdToToken hello_vocab 12 = "".
Proof. vm_compute. done. Qed.

(** ** The loop of the batch fall-backs *)

Section Loop.
Context {St Fault A B : Type}.
Implicit Types (f : A → M St Fault B) (xs : list A) (s : St).

Lemma bind_unfold {X Y} (m : M St Fault X) (k : X → M St Fault Y) s :
  (m ≫= k) s =
  match m s with
  | (Ret a, s') => k a s'
  | (Throw e, s') => (Throw e, s')
  end.
Proof. reflexivity. Qed.

(** The loop that pushes each result on [ret] computes [each], after what
    [ret] held on entry. *)
Lemma range_for_push_back f xs (acc : list B) s :
  range_for (λ x ret, r ← f x; mret (push_back ret r)) xs acc s =
  match each f xs s with
  | (Ret rs, s') => (Ret (acc ++ rs), s')
  | (Throw e, s') => (Throw e, s')
  end.
Proof.
  revert acc s. induction xs as [|x xs IH]; intros acc s; simpl.
  - unfold mret, M_ret. by rewrite app_nil_r.
  - rewrite !bind_unfold. destruct (f x s) as [[r|e] s1]; [|done].
    unfold mret at 1, M_ret at 1. rewrite IH, !bind_unfold.
    destruct (each f xs s1) as [[rs|e] s2]; [|done].
    unfold push_back, mret, M_ret. by rewrite <- app_assoc.
Qed.

Lemma state_at_0 f xs s : state_at f xs s 0 = s.
Proof. unfold state_at. by rewrite take_0. Qed.

Lemma state_at_cons f x xs s i :
  state_at f (x :: xs) s (S i) = state_at f xs (f x s).2 i.
Proof. reflexivity. Qed.

Lemma state_at_read_only f xs s i :
  (∀ x, read_only (f x)) → state_at f xs s i = s.
Proof.
  intros Hro. revert s i. induction xs as [|x xs IH]; intros s [|i]; try done.
  rewrite state_at_cons, IH. apply Hro.
Qed.

Lemma all_return_cons f x xs s :
  all_return f (x :: xs) s →
  returns (f x) s ∧ all_return f xs (f x s).2.
Proof.
  intros H. split.
  - apply (H 0%nat x). done.
  - intros i y Hy. rewrite <- state_at_cons. by apply (H (S i) y).
Qed.

(** When every per-item call returns, [each] returns their results in
    input order and leaves the state the last call left. *)
Lemma each_returns f xs s :
  all_return f xs s →
  ∃ rs, each f xs s = (Ret rs, state_at f xs s (length xs))
        ∧ length rs = length xs
        ∧ ∀ i x, xs !! i = Some x →
            ∃ r, rs !! i = Some r ∧ (f x (state_at f xs s i)).1 = Ret r.
Proof.
  revert s. induction xs as [|x xs IH]; intros s Hall.
  - exists []. by repeat split.
  - apply all_return_cons in Hall as [(r & s1 & Hx) Hall].
    rewrite Hx in Hall. simpl in Hall.
    destruct (IH _ Hall) as (rs & Hrs & Hlen & Hnth).
    exists (r :: rs). simpl. rewrite bind_unfold, Hx, bind_unfold, Hrs.
    rewrite state_at_cons, Hx. repeat split; [simpl; by rewrite Hlen|].
    intros [|i] y Hy; simpl in *.
    + injection Hy as <-. exists r. by rewrite state_at_0, Hx.
    + rewrite state_at_cons, Hx. by apply Hnth.
Qed.

Lemma each_outcomes f xs s rs s' :
  each f xs s = (Ret rs, s') → Ret <$> rs = outcomes_at f xs s.
Proof.
  unfold outcomes_at. revert s rs s'.
  induction xs as [|x xs IH]; intros s rs s'; simpl.
  - by intros [= <- _].
  - rewrite bind_unfold, state_at_0. destruct (f x s) as [[r|e] s1] eqn:Hx; [|done].
    rewrite bind_unfold. destruct (each f xs s1) as [[rs1|e] s2] eqn:Hxs; [|done].
    intros [= <- _]. rewrite fmap_cons. f_equal. rewrite (IH _ _ _ Hxs).
    apply imap_ext. intros i y _. simpl. by rewrite state_at_cons, Hx.
Qed.

(** The first per-item call that faults ends [each] with that fault, in the
    state that call left. *)
Lemma each_throws f xs s i x e s' :
  xs !! i = Some x →
  (∀ j y, (j < i)%nat → xs !! j = Some y → returns (f y) (state_at f xs s j)) →
  f x (state_at f xs s i) = (Throw e, s') →
  each f xs s = (Throw e, s').
Proof.
  revert s i. induction xs as [|y xs IH]; intros s [|i] Hi Hbefore Hx; try done.
  - injection Hi as ->. rewrite state_at_0 in Hx. simpl. by rewrite bind_unfold, Hx.
  - simpl in Hi. destruct (Hbefore 0%nat y) as (r & s1 & Hy); [lia|done|].
    rewrite state_at_0 in Hy. rewrite state_at_cons, Hy in Hx. simpl in Hx.
    simpl. rewrite bind_unfold, Hy, bind_unfold.
    rewrite (IH s1 i Hi); [done| |done].
    intros j z Hj Hz. specialize (Hbefore (S j) z).
    rewrite state_at_cons, Hy in Hbefore. apply Hbefore; [lia|done].
Qed.

Lemma each_app f xs ys s :
  each f (xs ++ ys) s = (r1 ← each f xs; r2 ← each f ys; mret (r1 ++ r2)) s.
Proof.
  revert s. induction xs as [|x xs IH]; intros s; simpl.
  - rewrite bind_unfold. unfold mret at 1, M_ret at 1. rewrite bind_unfold.
    by destruct (each f ys s) as [[rs|e] s1].
  - rewrite !bind_unfold. destruct (f x s) as [[r|e] s1]; [|done].
    rewrite !bind_unfold, IH, !bind_unfold.
    destruct (each f xs s1) as [[rs|e] s2]; [|done].
    unfold mret, M_ret. simpl. rewrite ?bind_unfold.
    by destruct (each f ys s2) as [[rs'|e] s3].
Qed.


End Loop.

Section Batch.
Context {St Fault : Type}.
Implicit Types (tk : Tokenizer St Fault) (s : St) (b : bool).

Lemma default_EncodeBatch_each tk texts b s :
  default_EncodeBatch tk texts b s = each (λ text, Encode tk text b) texts s.
Proof.
  unfold default_EncodeBatch. rewrite range_for_push_back.
  by destruct (each _ texts s) as [[rs|e] s'].
Qed.

Lemma default_DecodeBatch_each tk ids b s :
  default_DecodeBatch tk ids b s = each (λ id, Decode tk id b) ids s.
Proof.
  unfold default_DecodeBatch. rewrite range_for_push_back.
  by destruct (each _ ids s) as [[rs|e] s'].
Qed.


End Batch.

(** ** Properties of the default methods *)

Section Properties.
Context {St Fault : Type}.
Implicit Types (tk : Tokenizer St Fault) (s : St) (b : bool).

(** C1. Batch/single consistency of [EncodeBatch]: when each per-item
    [Encode] call of the loop returns, the default [EncodeBatch(T, b)]
    returns a list as long as [T] whose element at every index [i] is what
    [Encode(T[i], b)] returned, the call being made in the state the
    earlier calls left. *)
Theorem EncodeBatch_elementwise tk (T : list string) b s :
  all_return (λ text, Encode tk text b) T s →
  ∃ ret,
    default_EncodeBatch tk T b s
      = (Ret ret, state_at (λ text, Encode tk text b) T s (length T))
    ∧ length ret = length T
    ∧ ∀ i text, T !! i = Some text →
        ∃ ids, ret !! i = Some ids
          ∧ (Encode tk text b (state_at (λ text, Encode tk text b) T s i)).1 = Ret ids.
Proof.
  intros Hall. destruct (each_returns _ _ _ Hall) as (ret & Hret & Hlen & Hnth).
  exists ret. by rewrite default_EncodeBatch_each.
Qed.

(** C2. Batch/single consistency of [DecodeBatch]: when each per-item
    [Decode] call of the loop returns, the default [DecodeBatch(I, b)]
    returns a list as long as [I] whose element at every index [i] is what
    [Decode(I[i], b)] returned. *)
Theorem DecodeBatch_elementwise tk (I : list (list int32)) b s :
  all_return (λ ids, Decode tk ids b) I s →
  ∃ ret,
    default_DecodeBatch tk I b s
      = (Ret ret, state_at (λ ids, Decode tk ids b) I s (length I))
    ∧ length ret = length I
    ∧ ∀ i ids, I !! i = Some ids →
        ∃ text, ret !! i = Some text
          ∧ (Decode tk ids b (state_at (λ ids, Decode tk ids b) I s i)).1 = Ret text.
Proof.
  intros Hall. destruct (each_returns _ _ _ Hall) as (ret & Hret & Hlen & Hnth).
  exists ret. by rewrite default_DecodeBatch_each.
Qed.

(** With a backend that keeps no state the per-item call can be made at any
    time: the element at index [i] is [Encode(T[i], b)]. *)
Corollary stateless_EncodeBatch_items tk (T : list string) b s :
  stateless tk →
  all_return (λ text, Encode tk text b) T s →
  ∃ ret,
    default_EncodeBatch tk T b s = (Ret ret, s)
    ∧ length ret = length T
    ∧ ∀ i text, T !! i = Some text →
        ∃ ids, ret !! i = Some ids ∧ Encode tk text b s = (Ret ids, s).
Proof.
  intros [Henc _] Hall.
  destruct (each_returns _ _ _ Hall) as (ret & Hret & Hlen & Hnth).
  exists ret. rewrite default_EncodeBatch_each, Hret.
  rewrite !state_at_read_only by (intros x; apply Henc).
  repeat split; [done|]. intros i text Hi.
  destruct (Hnth i text Hi) as (ids & Hids & Hcall). exists ids. split; [done|].
  rewrite state_at_read_only in Hcall by (intros x; apply Henc).
  specialize (Henc text b s). destruct (Encode tk text b s) as [o s1].
  simpl in *. by subst.
Qed.

(** Likewise for [DecodeBatch]: with a backend that keeps no state the
    element at index [i] is [Decode(I[i], b)], called at any time. *)
Corollary stateless_DecodeBatch_items tk (I : list (list int32)) b s :
  stateless tk →
  all_return (λ ids, Decode tk ids b) I s →
  ∃ ret,
    default_DecodeBatch tk I b s = (Ret ret, s)
    ∧ length ret = length I
    ∧ ∀ i ids, I !! i = Some ids →
        ∃ text, ret !! i = Some text ∧ Decode tk ids b s = (Ret text, s).
Proof.
  intros [_ Hdec] Hall.
  destruct (each_returns _ _ _ Hall) as (ret & Hret & Hlen & Hnth).
  exists ret. rewrite default_DecodeBatch_each, Hret.
  rewrite !state_at_read_only by (intros x; apply Hdec).
  repeat split; [done|]. intros i ids Hi.
  destruct (Hnth i ids Hi) as (text & Htext & Hcall). exists text. split; [done|].
  rewrite state_at_read_only in Hcall by (intros x; apply Hdec).
  specialize (Hdec ids b s). destruct (Decode tk ids b s) as [o s1].
  simpl in *. by subst.
Qed.

(** C5. Order and cardinality: when the per-item calls return, each batch
    fall-back returns a list as long as its input, and that list is the
    list of the per-item results in input order: nothing is dropped,
    duplicated or moved, and an empty per-item result keeps its place. *)
Theorem batch_preserves_order_and_cardinality tk
    (T : list string) (I : list (list int32)) b s :
  all_return (λ text, Encode tk text b) T s →
  all_return (λ ids, Decode tk ids b) I s →
  (∃ ret s',
     default_EncodeBatch tk T b s = (Ret ret, s')
     ∧ length ret = length T
     ∧ Ret <$> ret = outcomes_at (λ text, Encode tk text b) T s
     ∧ ∀ i text, T !! i = Some text →
         (Encode tk text b (state_at (λ text, Encode tk text b) T s i)).1 = Ret [] →
         ret !! i = Some [])
  ∧ (∃ ret s',
       default_DecodeBatch tk I b s = (Ret ret, s')
       ∧ length ret = length I
       ∧ Ret <$> ret = outcomes_at (λ ids, Decode tk ids b) I s
       ∧ ∀ i ids, I !! i = Some ids →
           (Decode tk ids b (state_at (λ ids, Decode tk ids b) I s i)).1 = Ret "" →
           ret !! i = Some "").
Proof.
  intros HT HI. split.
  - destruct (each_returns _ _ _ HT) as (ret & Hret & Hlen & Hnth).
    exists ret, (state_at (λ text, Encode tk text b) T s (length T)).
    rewrite default_EncodeBatch_each. repeat split; [done..| |].
    + by eapply each_outcomes.
    + intros i text Hi Hempty. destruct (Hnth i text Hi) as (ids & Hids & Hcall).
      congruence.
  - destruct (each_returns _ _ _ HI) as (ret & Hret & Hlen & Hnth).
    exists ret, (state_at (λ ids, Decode tk ids b) I s (length I)).
    rewrite default_DecodeBatch_each. repeat split; [done..| |].
    + by eapply each_outcomes.
    + intros i ids Hi Hempty. destruct (Hnth i ids Hi) as (text & Htext & Hcall).
      congruence.
Qed.

(** C7. Batch partial failure: if the per-item call faults at index [i] and
    the calls on the elements before [i] returned, the default batch method
    ends with that fault and returns no list; the instance is left in the
    state the faulting call left, so no element after [i] is processed. *)
Theorem batch_aborts_at_first_fault tk b s (i : nat) (e : Fault) (s' : St) :
  (∀ (T : list string) text,
     T !! i = Some text →
     (∀ j u, (j < i)%nat → T !! j = Some u →
        returns (Encode tk u b) (state_at (λ text, Encode tk text b) T s j)) →
     Encode tk text b (state_at (λ text, Encode tk text b) T s i) = (Throw e, s') →
     default_EncodeBatch tk T b s = (Throw e, s'))
  ∧ (∀ (I : list (list int32)) ids,
       I !! i = Some ids →
       (∀ j u, (j < i)%nat → I !! j = Some u →
          returns (Decode tk u b) (state_at (λ ids, Decode tk ids b) I s j)) →
       Decode tk ids b (state_at (λ ids, Decode tk ids b) I s i) = (Throw e, s') →
       default_DecodeBatch tk I b s = (Throw e, s')).
Proof.
  split.
  - intros T text Hi Hbefore Hcall. rewrite default_EncodeBatch_each.
    by eapply (each_throws (λ text, Encode tk text b)).
  - intros I ids Hi Hbefore Hcall. rewrite default_DecodeBatch_each.
    by eapply (each_throws (λ ids, Decode tk ids b)).
Qed.

(** C10. The batch fall-backs distribute over concatenation of the input:
    running on [T1 ++ T2] is running on [T1], then on [T2], and appending
    the two results; the empty input yields the empty output. *)
Theorem batch_app_homomorphism tk b s :
  (∀ T1 T2 : list string,
     default_EncodeBatch tk (T1 ++ T2) b s
     = (r1 ← default_EncodeBatch tk T1 b;
        r2 ← default_EncodeBatch tk T2 b;
        mret (r1 ++ r2)) s)
  ∧ (∀ I1 I2 : list (list int32),
       default_DecodeBatch tk (I1 ++ I2) b s
       = (r1 ← default_DecodeBatch tk I1 b;
          r2 ← default_DecodeBatch tk I2 b;
          mret (r1 ++ r2)) s)
  ∧ default_EncodeBatch tk [] b s = (Ret [], s)
  ∧ default_DecodeBatch tk [] b s = (Ret [], s).
Proof.
  repeat split.
  - intros T1 T2. rewrite default_EncodeBatch_each, each_app, !bind_unfold.
    rewrite <- default_EncodeBatch_each.
    destruct (default_EncodeBatch tk T1 b s) as [[r1|e1] s1]; [|done].
    by rewrite !bind_unfold, default_EncodeBatch_each.
  - intros I1 I2. rewrite default_DecodeBatch_each, each_app, !bind_unfold.
    rewrite <- default_DecodeBatch_each.
    destruct (default_DecodeBatch tk I1 b s) as [[r1|e1] s1]; [|done].
    by rewrite !bind_unfold, default_DecodeBatch_each.
Qed.

(** C3. The flag-free overloads are the two-argument forms with the flag
    false: [Encode(t)] is [Encode(t, false)] and [Decode(ids)] is
    [Decode(ids, false)]. *)
Theorem convenience_forms_flag_false tk (text : string) (ids : list int32) :
  default_Encode1 tk text = Encode tk text false
  ∧ default_Decode1 tk ids = Decode tk ids false.
Proof. split; reflexivity. Qed.

(** C4. The flag-free batch overloads are the two-argument batch forms with
    the flag false, whichever body the two-argument form of the instance
    has: [EncodeBatch(T)] is [EncodeBatch(T, false)] and [DecodeBatch(I)] is
    [DecodeBatch(I, false)]. *)
Theorem batch_convenience_forms_flag_false tk
    (T : list string) (I : list (list int32)) :
  default_EncodeBatch1 tk T = EncodeBatch tk T false
  ∧ default_DecodeBatch1 tk I = DecodeBatch tk I false.
Proof. split; reflexivity. Qed.

(** A virtual call on an instance that overrides none of the methods with
    a body runs the base-class bodies all the way down. *)
Lemma inherited_calls encode decode vocab_size id_to_token token_to_id :
  let tk : Tokenizer St Fault :=
    derive encode decode vocab_size id_to_token token_to_id in
  Encode1 tk = (λ text, encode text false)
  ∧ Decode1 tk = (λ ids, decode ids false)
  ∧ EncodeBatch tk = default_EncodeBatch tk
  ∧ DecodeBatch tk = default_DecodeBatch tk
  ∧ EncodeBatch1 tk = (λ texts, default_EncodeBatch tk texts false)
  ∧ DecodeBatch1 tk = (λ ids, default_DecodeBatch tk ids false).
Proof. by repeat split. Qed.

(** C8. Lookup misses are ordinary results: [TokenToId] on a string that is
    not in the vocabulary returns -1, and [IdToToken] on an id that is out
    of range or has no string form returns the empty string; both calls
    return, neither faults. *)
Theorem lookup_miss_sentinels (v : Vocabulary)
    (encode : string → bool → M St Fault (list int32))
    (decode : list int32 → bool → M St Fault string)
    (token : string) (id : int32) s :
  (token_ids v !! token = None →
     TokenToId (vocab_tokenizer v encode decode) token s = (Ret (-1), s))
  ∧ (¬ (0 ≤ id < Z.of_N (vocab_size v)) ∨ id_tokens v !! id = None →
       IdToToken (vocab_tokenizer v encode decode) id s = (Ret "", s)).
Proof.
  split.
  - intros Hmiss. unfold vocab_tokenizer, derive. cbn [TokenToId].
    unfold mret, M_ret, vocab_TokenToId, int32 in *. by rewrite Hmiss.
  - intros Hmiss. unfold vocab_tokenizer, derive. cbn [IdToToken].
    unfold mret, M_ret, vocab_IdToToken, int32 in *.
    case_bool_decide as Hrange; [|done].
    destruct Hmiss as [Hout|Hnone]; [done|]. by rewrite Hnone.
Qed.


End Properties.

(** ** The properties on the sample backends *)


(** The flag-free batch call reaches the override of the two-argument
    form: one call is counted for the batch, not one for each item. *)
Example native_batch_dispatch :
  EncodeBatch1 native_tokenizer ["a"; "b"] 0%nat = (Ret [[97]; [98]], 1%nat)
  ∧ default_EncodeBatch native_tokenizer ["a"; "b"] false 0%nat
    = (Ret [[97]; [98]], 2%nat).
Proof. by split. Qed.

Lemma EncodeBatch_elementwise_witness :
  all_return (λ text, Encode counting_tokenizer text true) ["a"; ""; "bc"] 0%nat
  ∧ ∃ ret,
      default_EncodeBatch counting_tokenizer ["a"; ""; "bc"] true 0%nat
        = (Ret ret,
           state_at (λ text, Encode counting_tokenizer text true)
             ["a"; ""; "bc"] 0%nat (length ["a"; ""; "bc"]))
      ∧ length ret = length ["a"; ""; "bc"]
      ∧ ∀ i text, ["a"; ""; "bc"] !! i = Some text →
          ∃ ids, ret !! i = Some ids
            ∧ (Encode counting_tokenizer text true
                 (state_at (λ text, Encode counting_tokenizer text true)
                    ["a"; ""; "bc"] 0%nat i)).1 = Ret ids.
Proof.
  assert (H : all_return (λ text, Encode counting_tokenizer text true)
                ["a"; ""; "bc"] 0%nat).
  { intros [|[|[|i]]] x [= <-]; by eexists _, _. }
  split; [exact H|]. exact (EncodeBatch_elementwise counting_tokenizer _ true _ H).
Defined.

Lemma DecodeBatch_elementwise_witness :
  all_return (λ ids, Decode counting_tokenizer ids true)
    [[256; 104; 105; 257]; []; [98]] 0%nat
  ∧ ∃ ret,
      default_DecodeBatch counting_tokenizer [[256; 104; 105; 257]; []; [98]] true 0%nat
        = (Ret ret,
           state_at (λ ids, Decode counting_tokenizer ids true)
             [[256; 104; 105; 257]; []; [98]] 0%nat 3)
      ∧ length ret = 3%nat
      ∧ ∀ i ids, [[256; 104; 105; 257]; []; [98]] !! i = Some ids →
          ∃ text, ret !! i = Some text
            ∧ (Decode counting_tokenizer ids true
                 (state_at (λ ids, Decode counting_tokenizer ids true)
                    [[256; 104; 105; 257]; []; [98]] 0%nat i)).1 = Ret text.
Proof.
  assert (H : all_return (λ ids, Decode counting_tokenizer ids true)
                [[256; 104; 105; 257]; []; [98]] 0%nat).
  { intros [|[|[|i]]] x [= <-]; by eexists _, _. }
  split; [exact H|]. exact (DecodeBatch_elementwise counting_tokenizer _ true _ H).
Defined.

Lemma batch_preserves_order_and_cardinality_witness :
  all_return (λ text, Encode counting_tokenizer text false) ["a"; ""; "bc"] 0%nat
  ∧ all_return (λ ids, Decode counting_tokenizer ids false) [[97]; []; [98; 99]] 0%nat
  ∧ (∃ ret s',
       default_EncodeBatch counting_tokenizer ["a"; ""; "bc"] false 0%nat = (Ret ret, s')
       ∧ length ret = 3%nat
       ∧ Ret <$> ret
         = outcomes_at (λ text, Encode counting_tokenizer text false) ["a"; ""; "bc"] 0%nat
       ∧ ∀ i text, ["a"; ""; "bc"] !! i = Some text →
           (Encode counting_tokenizer text false
              (state_at (λ text, Encode counting_tokenizer text false)
                 ["a"; ""; "bc"] 0%nat i)).1 = Ret [] →
           ret !! i = Some [])
  ∧ (∃ ret s',
       default_DecodeBatch counting_tokenizer [[97]; []; [98; 99]] false 0%nat
         = (Ret ret, s')
       ∧ length ret = 3%nat
       ∧ Ret <$> ret
         = outcomes_at (λ ids, Decode counting_tokenizer ids false)
             [[97]; []; [98; 99]] 0%nat
       ∧ ∀ i ids, [[97]; []; [98; 99]] !! i = Some ids →
           (Decode counting_tokenizer ids false
              (state_at (λ ids, Decode counting_tokenizer ids false)
                 [[97]; []; [98; 99]] 0%nat i)).1 = Ret "" →
           ret !! i = Some "").
Proof.
  assert (HT : all_return (λ text, Encode counting_tokenizer text false)
                 ["a"; ""; "bc"] 0%nat).
  { intros [|[|[|i]]] x [= <-]; by eexists _, _. }
  assert (HI : all_return (λ ids, Decode counting_tokenizer ids false)
                 [[97]; []; [98; 99]] 0%nat).
  { intros [|[|[|i]]] x [= <-]; by eexists _, _. }
  split; [exact HT|]. split; [exact HI|].
  exact (batch_preserves_order_and_cardinality counting_tokenizer _ _ false _ HT HI).
Defined.

Lemma batch_aborts_at_first_fault_witness :
  (["a"; String "200" ""; "c"] !! 1%nat = Some (String "200" "")
   ∧ (∀ j u, (j < 1)%nat → ["a"; String "200" ""; "c"] !! j = Some u →
        returns (Encode counting_tokenizer u false)
          (state_at (λ text, Encode counting_tokenizer text false)
             ["a"; String "200" ""; "c"] 0%nat j))
   ∧ Encode counting_tokenizer (String "200" "") false
       (state_at (λ text, Encode counting_tokenizer text false)
          ["a"; String "200" ""; "c"] 0%nat 1)
     = (Throw (BadByte "200"), 2%nat)
   ∧ default_EncodeBatch counting_tokenizer ["a"; String "200" ""; "c"] false 0%nat
     = (Throw (BadByte "200"), 2%nat))
  ∧ ([[97]; [98; 999]; [99]] !! 1%nat = Some [98; 999]
     ∧ (∀ j u, (j < 1)%nat → [[97]; [98; 999]; [99]] !! j = Some u →
          returns (Decode counting_tokenizer u false)
            (state_at (λ ids, Decode counting_tokenizer ids false)
               [[97]; [98; 999]; [99]] 0%nat j))
     ∧ Decode counting_tokenizer [98; 999] false
         (state_at (λ ids, Decode counting_tokenizer ids false)
            [[97]; [98; 999]; [99]] 0%nat 1)
       = (Throw (BadId 999), 2%nat)
     ∧ default_DecodeBatch counting_tokenizer [[97]; [98; 999]; [99]] false 0%nat
       = (Throw (BadId 999), 2%nat)).
Proof.
  assert (HE : ∀ j u, (j < 1)%nat → ["a"; String "200" ""; "c"] !! j = Some u →
             returns (Encode counting_tokenizer u false)
               (state_at (λ text, Encode counting_tokenizer text false)
                  ["a"; String "200" ""; "c"] 0%nat j)).
  { intros [|j] u Hj Hu; [|lia]. injection Hu as <-. by eexists _, _. }
  assert (HD : ∀ j u, (j < 1)%nat → [[97]; [98; 999]; [99]] !! j = Some u →
             returns (Decode counting_tokenizer u false)
               (state_at (λ ids, Decode counting_tokenizer ids false)
                  [[97]; [98; 999]; [99]] 0%nat j)).
  { intros [|j] u Hj Hu; [|lia]. injection Hu as <-. by eexists _, _. }
  split.
  - split; [reflexivity|]. split; [exact HE|]. split; [reflexivity|].
    exact (proj1 (batch_aborts_at_first_fault counting_tokenizer false 0%nat 1%nat
                    (BadByte "200") 2%nat)
             ["a"; String "200" ""; "c"] (String "200" "")
             eq_refl HE eq_refl).
  - split; [reflexivity|]. split; [exact HD|]. split; [reflexivity|].
    exact (proj2 (batch_aborts_at_first_fault counting_tokenizer false 0%nat 1%nat
                    (BadId 999) 2%nat)
             [[97]; [98; 999]; [99]] [98; 999]
             eq_refl HD eq_refl).
Defined.

Lemma lookup_miss_sentinels_witness :
  (token_ids hello_vocab !! "Hello" = None
   ∧ TokenToId (vocab_tokenizer hello_vocab (Encode byte_tokenizer) (Decode byte_tokenizer))
       "Hello" 0%nat = (Ret (-1), 0%nat))
  ∧ (¬ (0 ≤ 12 < Z.of_N (vocab_size hello_vocab))
     ∧ IdToToken (vocab_tokenizer hello_vocab (Encode byte_tokenizer) (Decode byte_tokenizer))
         12 0%nat = (Ret "", 0%nat))
  ∧ (id_tokens hello_vocab !! 5 = None
     ∧ IdToToken (vocab_tokenizer hello_vocab (Encode byte_tokenizer) (Decode byte_tokenizer))
         5 0%nat = (Ret "", 0%nat)).
Proof.
  assert (H1 : token_ids hello_vocab !! "Hello" = None) by (vm_compute; reflexivity).
  assert (H2 : ¬ (0 ≤ 12 < Z.of_N (vocab_size hello_vocab))) by (simpl; lia).
  assert (H3 : id_tokens hello_vocab !! 5 = None) by (vm_compute; reflexivity).
  split; [|split].
  - split; [exact H1|].
    exact (proj1 (lookup_miss_sentinels hello_vocab _ _ "Hello" 0 0%nat) H1).
  - split; [exact H2|].
    exact (proj2 (lookup_miss_sentinels hello_vocab _ _ "" 12 0%nat) (or_introl H2)).
  - split; [exact H3|].
    exact (proj2 (lookup_miss_sentinels hello_vocab _ _ "" 5 0%nat) (or_intror H3)).
Defined.


(** ** Further properties of the batch fall-backs *)

Section LoopFacts.
Context {St Fault A B : Type}.
Implicit Types (f : A → M St Fault B) (g : B → M St Fault A) (xs : list A) (s : St).

Lemma each_ext f (f' : A → M St Fault B) xs s :
  (∀ x s1, f x s1 = f' x s1) → each f xs s = each f' xs s.
Proof.
  intros Hext. revert s. induction xs as [|x xs IH]; intros s; simpl; [done|].
  rewrite !bind_unfold, Hext. destruct (f' x s) as [[r|e] s1]; [|done].
  by rewrite !bind_unfold, IH.
Qed.

(** If [g] undoes [f] on every item, without a change of state, then [each g]
    undoes [each f]. *)
Lemma each_round_trip f g xs s :
  (∀ x, x ∈ xs → ∃ y, f x s = (Ret y, s) ∧ g y s = (Ret x, s)) →
  ∃ ys, each f xs s = (Ret ys, s) ∧ each g ys s = (Ret xs, s).
Proof.
  induction xs as [|x xs IH]; intros Hrt.
  - by exists [].
  - destruct (Hrt x) as (y & Hf & Hg); [by left|].
    destruct IH as (ys & Hfs & Hgs); [intros z Hz; apply Hrt; by right|].
    exists (y :: ys). simpl.
    by rewrite !bind_unfold, Hf, !bind_unfold, Hfs, Hg, !bind_unfold, Hgs.
Qed.

End LoopFacts.

Section FurtherProperties.
Context {St Fault : Type}.
Implicit Types (tk : Tokenizer St Fault) (s : St) (b : bool).

(** The batch fall-backs call the two-argument [Encode] and [Decode] with
    the flag they were given, and nothing else of the instance: two
    instances that agree on these calls give the same batch results,
    whatever else the derived classes override. *)
Theorem batch_reads_two_argument_form_only tk (tk' : Tokenizer St Fault) b :
  ((∀ text s, Encode tk text b s = Encode tk' text b s) →
     ∀ T s, default_EncodeBatch tk T b s = default_EncodeBatch tk' T b s)
  ∧ ((∀ ids s, Decode tk ids b s = Decode tk' ids b s) →
       ∀ I s, default_DecodeBatch tk I b s = default_DecodeBatch tk' I b s).
Proof.
  split.
  - intros Hagree T s. rewrite !default_EncodeBatch_each.
    apply each_ext. intros x s1. apply Hagree.
  - intros Hagree I s. rewrite !default_DecodeBatch_each.
    apply each_ext. intros x s1. apply Hagree.
Qed.

(** On an instance that overrides neither the flag-free forms nor the batch
    forms, the flag-free batch call is the flag-free single call made on each
    item in order: [EncodeBatch(texts)] collects [Encode(text)] and
    [DecodeBatch(ids)] collects [Decode(id)], faults and state included. *)
Theorem flag_free_batch_is_each_flag_free tk :
  override_Encode1 tk = None →
  override_EncodeBatch tk = None →
  override_EncodeBatch1 tk = None →
  override_Decode1 tk = None →
  override_DecodeBatch tk = None →
  override_DecodeBatch1 tk = None →
  (∀ T s, EncodeBatch1 tk T s = each (Encode1 tk) T s)
  ∧ (∀ I s, DecodeBatch1 tk I s = each (Decode1 tk) I s).
Proof.
  intros HE1 HEB HEB1 HD1 HDB HDB1. split.
  - intros T s. unfold EncodeBatch1, Encode1. rewrite HEB1, HE1. simpl.
    unfold default_EncodeBatch1, EncodeBatch. rewrite HEB. simpl.
    by rewrite default_EncodeBatch_each.
  - intros I s. unfold DecodeBatch1, Decode1. rewrite HDB1, HD1. simpl.
    unfold default_DecodeBatch1, DecodeBatch. rewrite HDB. simpl.
    by rewrite default_DecodeBatch_each.
Qed.

(** A round trip of the single calls lifts to the batch fall-backs: when
    [Decode] undoes [Encode] on every text of [T], in a state both leave
    unchanged, [DecodeBatch] undoes [EncodeBatch] on [T]; and the other way
    round for a list of id sequences. *)
Theorem batch_round_trip tk (b b' : bool) s :
  (∀ T : list string,
     (∀ text, text ∈ T →
        ∃ ids, Encode tk text b s = (Ret ids, s) ∧ Decode tk ids b' s = (Ret text, s)) →
     ∃ ret, default_EncodeBatch tk T b s = (Ret ret, s)
            ∧ default_DecodeBatch tk ret b' s = (Ret T, s))
  ∧ (∀ I : list (list int32),
       (∀ ids, ids ∈ I →
          ∃ text, Decode tk ids b' s = (Ret text, s) ∧ Encode tk text b s = (Ret ids, s)) →
       ∃ ret, default_DecodeBatch tk I b' s = (Ret ret, s)
              ∧ default_EncodeBatch tk ret b s = (Ret I, s)).
Proof.
  split.
  - intros T Hrt.
    destruct (each_round_trip (λ text, Encode tk text b) (λ ids, Decode tk ids b') T s Hrt)
      as (ret & Henc & Hdec).
    exists ret. by rewrite default_EncodeBatch_each, default_DecodeBatch_each.
  - intros I Hrt.
    destruct (each_round_trip (λ ids, Decode tk ids b') (λ text, Encode tk text b) I s Hrt)
      as (ret & Hdec & Henc).
    exists ret. by rewrite default_EncodeBatch_each, default_DecodeBatch_each.
Qed.

End FurtherProperties.

Section ReturnFacts.
Context {St Fault A B : Type}.
Implicit Types (f : A → M St Fault B) (xs : list A) (s : St).

(** [each] returns only if every per-item call returned, with one result
    for each item. *)
Lemma each_returns_inv f xs s rs s' :
  each f xs s = (Ret rs, s') →
  all_return f xs s ∧ length rs = length xs ∧ s' = state_at f xs s (length xs).
Proof.
  revert s rs. induction xs as [|y xs IH]; intros s rs; simpl.
  - intros [= <- <-]. repeat split. intros i x Hi. done.
  - rewrite bind_unfold. destruct (f y s) as [[r|e0] s1] eqn:Hy; [|done].
    rewrite bind_unfold. destruct (each f xs s1) as [[rs1|e1] s2] eqn:Hxs; [|done].
    intros [= <- <-]. destruct (IH _ _ Hxs) as (Hall & Hlen & Hs2).
    rewrite state_at_cons, Hy. split; [|split; [simpl; by rewrite Hlen|done]].
    intros [|i] x Hi.
    + injection Hi as <-. rewrite state_at_0. by eexists _, _.
    + rewrite state_at_cons, Hy. by apply Hall.
Qed.

End ReturnFacts.

Section ReturnProperties.
Context {St Fault : Type}.
Implicit Types (tk : Tokenizer St Fault) (s : St) (b : bool).

(** A batch fall-back that returns has made every per-item call, each of
    them returned, and the list it returns has the length of the input:
    with a result in hand no item was skipped and none failed silently. *)
Theorem batch_returns_only_if_items_return tk b s (s' : St) :
  (∀ (T : list string) ret,
     default_EncodeBatch tk T b s = (Ret ret, s') →
     all_return (λ text, Encode tk text b) T s
     ∧ length ret = length T
     ∧ s' = state_at (λ text, Encode tk text b) T s (length T))
  ∧ (∀ (I : list (list int32)) ret,
       default_DecodeBatch tk I b s = (Ret ret, s') →
       all_return (λ ids, Decode tk ids b) I s
       ∧ length ret = length I
       ∧ s' = state_at (λ ids, Decode tk ids b) I s (length I)).
Proof.
  split.
  - intros T ret. rewrite default_EncodeBatch_each. apply each_returns_inv.
  - intros I ret. rewrite default_DecodeBatch_each. apply each_returns_inv.
Qed.

End ReturnProperties.

(** ** The further properties on the sample backends *)

Lemma stateless_EncodeBatch_items_witness :
  stateless (@byte_tokenizer nat)
  ∧ all_return (λ text, Encode (@byte_tokenizer nat) text true) ["a"; ""; "bc"] 7%nat
  ∧ ∃ ret,
      default_EncodeBatch (@byte_tokenizer nat) ["a"; ""; "bc"] true 7%nat = (Ret ret, 7%nat)
      ∧ length ret = 3%nat
      ∧ ∀ i text, ["a"; ""; "bc"] !! i = Some text →
          ∃ ids, ret !! i = Some ids
            ∧ Encode (@byte_tokenizer nat) text true 7%nat = (Ret ids, 7%nat).
Proof.
  assert (Hs : stateless (@byte_tokenizer nat)).
  { split; intros x b s; reflexivity. }
  assert (H : all_return (λ text, Encode (@byte_tokenizer nat) text true)
                ["a"; ""; "bc"] 7%nat).
  { intros [|[|[|i]]] x [= <-]; by eexists _, _. }
  split; [exact Hs|]. split; [exact H|].
  exact (stateless_EncodeBatch_items byte_tokenizer _ true _ Hs H).
Defined.

Lemma stateless_DecodeBatch_items_witness :
  stateless (@byte_tokenizer nat)
  ∧ all_return (λ ids, Decode (@byte_tokenizer nat) ids false)
      [[256; 104]; []; [98]] 7%nat
  ∧ ∃ ret,
      default_DecodeBatch (@byte_tokenizer nat) [[256; 104]; []; [98]] false 7%nat
        = (Ret ret, 7%nat)
      ∧ length ret = 3%nat
      ∧ ∀ i ids, [[256; 104]; []; [98]] !! i = Some ids →
          ∃ text, ret !! i = Some text
            ∧ Decode (@byte_tokenizer nat) ids false 7%nat = (Ret text, 7%nat).
Proof.
  assert (Hs : stateless (@byte_tokenizer nat)).
  { split; intros x b s; reflexivity. }
  assert (H : all_return (λ ids, Decode (@byte_tokenizer nat) ids false)
                [[256; 104]; []; [98]] 7%nat).
  { intros [|[|[|i]]] x [= <-]; by eexists _, _. }
  split; [exact Hs|]. split; [exact H|].
  exact (stateless_DecodeBatch_items byte_tokenizer _ false _ Hs H).
Defined.

Lemma batch_reads_two_argument_form_only_witness :
  ((∀ text s, Encode counting_tokenizer text true s = Encode native_tokenizer text true s)
   ∧ ∀ T s, default_EncodeBatch counting_tokenizer T true s
            = default_EncodeBatch native_tokenizer T true s)
  ∧ ((∀ ids s, Decode counting_tokenizer ids true s = Decode native_tokenizer ids true s)
     ∧ ∀ I s, default_DecodeBatch counting_tokenizer I true s
              = default_DecodeBatch native_tokenizer I true s).
Proof.
  assert (HE : ∀ text s,
             Encode counting_tokenizer text true s = Encode native_tokenizer text true s)
    by reflexivity.
  assert (HD : ∀ ids s,
             Decode counting_tokenizer ids true s = Decode native_tokenizer ids true s)
    by reflexivity.
  split.
  - split; [exact HE|].
    exact (proj1 (batch_reads_two_argument_form_only
                    counting_tokenizer native_tokenizer true) HE).
  - split; [exact HD|].
    exact (proj2 (batch_reads_two_argument_form_only
                    counting_tokenizer native_tokenizer true) HD).
Defined.

Lemma flag_free_batch_is_each_flag_free_witness :
  (override_Encode1 counting_tokenizer = None
   ∧ override_EncodeBatch counting_tokenizer = None
   ∧ override_EncodeBatch1 counting_tokenizer = None
   ∧ override_Decode1 counting_tokenizer = None
   ∧ override_DecodeBatch counting_tokenizer = None
   ∧ override_DecodeBatch1 counting_tokenizer = None)
  ∧ (∀ T s, EncodeBatch1 counting_tokenizer T s = each (Encode1 counting_tokenizer) T s)
  ∧ (∀ I s, DecodeBatch1 counting_tokenizer I s = each (Decode1 counting_tokenizer) I s).
Proof.
  split; [by repeat split|].
  exact (flag_free_batch_is_each_flag_free counting_tokenizer
           eq_refl eq_refl eq_refl eq_refl eq_refl eq_refl).
Defined.

Lemma batch_round_trip_witness :
  ((∀ text, text ∈ ["hi"; ""; "a b"] →
      ∃ ids, Encode (@byte_tokenizer nat) text true 0%nat = (Ret ids, 0%nat)
             ∧ Decode (@byte_tokenizer nat) ids true 0%nat = (Ret text, 0%nat))
   ∧ ∃ ret, default_EncodeBatch (@byte_tokenizer nat) ["hi"; ""; "a b"] true 0%nat
              = (Ret ret, 0%nat)
            ∧ default_DecodeBatch (@byte_tokenizer nat) ret true 0%nat
              = (Ret ["hi"; ""; "a b"], 0%nat))
  ∧ ((∀ ids, ids ∈ [[256; 104; 257]; [256; 257]] →
        ∃ text, Decode (@byte_tokenizer nat) ids true 0%nat = (Ret text, 0%nat)
                ∧ Encode (@byte_tokenizer nat) text true 0%nat = (Ret ids, 0%nat))
     ∧ ∃ ret, default_DecodeBatch (@byte_tokenizer nat) [[256; 104; 257]; [256; 257]]
                true 0%nat = (Ret ret, 0%nat)
              ∧ default_EncodeBatch (@byte_tokenizer nat) ret true 0%nat
                = (Ret [[256; 104; 257]; [256; 257]], 0%nat)).
Proof.
  assert (HT : ∀ text, text ∈ ["hi"; ""; "a b"] →
             ∃ ids, Encode (@byte_tokenizer nat) text true 0%nat = (Ret ids, 0%nat)
                    ∧ Decode (@byte_tokenizer nat) ids true 0%nat = (Ret text, 0%nat)).
  { intros text Hin. repeat (apply elem_of_cons in Hin as [->|Hin]);
      [by eexists..|by apply elem_of_nil in Hin]. }
  assert (HI : ∀ ids, ids ∈ [[256; 104; 257]; [256; 257]] →
             ∃ text, Decode (@byte_tokenizer nat) ids true 0%nat = (Ret text, 0%nat)
                     ∧ Encode (@byte_tokenizer nat) text true 0%nat = (Ret ids, 0%nat)).
  { intros ids Hin. repeat (apply elem_of_cons in Hin as [->|Hin]);
      [by eexists..|by apply elem_of_nil in Hin]. }
  split.
  - split; [exact HT|].
    exact (proj1 (batch_round_trip byte_tokenizer true true 0%nat) _ HT).
  - split; [exact HI|].
    exact (proj2 (batch_round_trip byte_tokenizer true true 0%nat) _ HI).
Defined.

Lemma batch_returns_only_if_items_return_witness :
  (default_EncodeBatch counting_tokenizer ["a"; ""; "bc"] true 0%nat
     = (Ret [[256; 97; 257]; [256; 257]; [256; 98; 99; 257]], 3%nat)
   ∧ all_return (λ text, Encode counting_tokenizer text true) ["a"; ""; "bc"] 0%nat
   ∧ length [[256; 97; 257]; [256; 257]; [256; 98; 99; 257]] = length ["a"; ""; "bc"]
   ∧ 3%nat = state_at (λ text, Encode counting_tokenizer text true)
               ["a"; ""; "bc"] 0%nat (length ["a"; ""; "bc"]))
  ∧ (default_DecodeBatch counting_tokenizer [[97]; []] true 0%nat
       = (Ret ["a"; ""], 2%nat)
     ∧ all_return (λ ids, Decode counting_tokenizer ids true) [[97]; []] 0%nat
     ∧ length ["a"; ""] = length [[97]; []]
     ∧ 2%nat = state_at (λ ids, Decode counting_tokenizer ids true)
                 [[97]; []] 0%nat (length [[97]; []])).
Proof.
  split.
  - split; [reflexivity|].
    exact (proj1 (batch_returns_only_if_items_return counting_tokenizer true 0%nat 3%nat)
             ["a"; ""; "bc"] _ eq_refl).
  - split; [reflexivity|].
    exact (proj2 (batch_returns_only_if_items_return counting_tokenizer true 0%nat 2%nat)
             [[97]; []] _ eq_refl).
Defined.
